(** * Gravity corrections: a shallow embedding of
      [prosp_gravi_magne/gravity_corrections.py]

    The numeric arrays of the source are lists.  The functions that only
    use field arithmetic ([hms_to_hh], [lat_dist], [drift_correction],
    [relative_g], [air_correction], [bouguer_correction])
    are embedded over the canonical rationals [Qc], so that they can be
    evaluated; the functions that use [np.sin] ([gn],
    [latitude_correction]) are embedded over the real numbers [R].
    Rounding of the 64-bit floats is not modelled; their overflow is
    modelled in [drift_correction]. *)

From Stdlib Require Import QArith Qcanon Reals Lra.
From stdpp Require Import base list strings.

(** ** Exceptions *)

Inductive exn := IndexError | TypeError.

Inductive result (A : Type) :=
| Ok (a : A)
| Raise (e : exn).
Arguments Ok {A} a.
Arguments Raise {A} e.

(** Sequencing: the first exception ends the computation.  The notation
    [x ← r; k] is the one of [MBind]. *)
#[global] Instance result_bind : MBind result := fun A B k r =>
  match r with
  | Ok a => k a
  | Raise e => Raise e
  end.

(** [a[i]] for a non-negative index: out of range raises [IndexError]. *)
Definition getitem {A} (a : list A) (i : nat) : result A :=
  match a !! i with
  | Some x => Ok x
  | None => Raise IndexError
  end.

(** [for i in rng: st = body(i, st)], stopping at the first exception. *)
Fixpoint for_range {St} (body : nat -> St -> result St) (rng : list nat)
    (st : St) : result St :=
  match rng with
  | [] => Ok st
  | i :: rng' => st' ← body i st; for_range body rng' st'
  end.

(** ** Rational part *)

Module Rational.

Local Open Scope Qc_scope.

(** A float literal. *)
Definition float (q : Q) : Qc := Q2Qc q.
Definition floats (qs : list Q) : list Qc := map float qs.

(** The value of a float expression: a number, or an infinity or a NaN,
    for which [NonFinite] stands.  A product with an infinity or a NaN
    and a sum with one are again an infinity or a NaN. *)
Inductive fnum :=
| Fin (q : Qc)
| NonFinite.

(** A result of absolute value [2^1024 - 2^970] or more overflows to an
    infinity; below it the result is a number, whose rounding is not
    modelled. *)
Definition overflow_threshold : Q := inject_Z (2 ^ 1024 - 2 ^ 970).

Definition in_range (q : Qc) : bool :=
  negb (Qle_bool overflow_threshold (this q))
  && negb (Qle_bool (this q) (- overflow_threshold)).

Definition to_float (q : Qc) : fnum :=
  if in_range q then Fin q else NonFinite.

Definition is_zero (q : Qc) : bool := Qeq_bool (this q) 0.

(** [a - b] for two numbers. *)
Definition fsub (a b : Qc) : fnum := to_float (a - b).

(** [x / y].  The operands are numpy scalars, and dividing numpy scalars
    by zero raises nothing: it gives a warning and an infinity or a NaN.
    The divisor of [drift_correction] is a difference of two numbers, so
    that a non-finite divisor is an infinity: a number over it is 0, and
    an infinity over it is a NaN. *)
Definition fdiv (x y : fnum) : fnum :=
  match y with
  | Fin b =>
      if is_zero b then NonFinite
      else match x with
           | Fin a => to_float (a / b)
           | NonFinite => NonFinite
           end
  | NonFinite =>
      match x with
      | Fin _ => Fin 0
      | NonFinite => NonFinite
      end
  end.

Definition fmul (x y : fnum) : fnum :=
  match x, y with
  | Fin a, Fin b => to_float (a * b)
  | _, _ => NonFinite
  end.

Definition fadd (x y : fnum) : fnum :=
  match x, y with
  | Fin a, Fin b => to_float (a + b)
  | _, _ => NonFinite
  end.

Arguments to_float : simpl never.
Arguments fsub : simpl never.
Arguments fdiv : simpl never.
Arguments fmul : simpl never.
Arguments fadd : simpl never.

(** *** [hms_to_hh] *)

(** A time of day: the attributes [hour], [minute] and [second] that the
    function reads, which are integers. *)
Record clock := Clock {
  hour : Z;
  minute : Z;
  second : Z
}.

(** An integer as a float. *)
Definition of_int (n : Z) : Qc := Q2Qc (inject_Z n).

Definition hms_to_hh (time : list clock) : list Qc :=
  map (fun t => of_int (hour t) + of_int (minute t) / float 60
                + of_int (second t) / float 3600)
      time.

(** *** [lat_dist] *)

(** The literal [111 * 10e2]. *)
Definition deg_2_m : Qc := float 111 * float 10e2.

Definition lat_dist (lat_base : Qc) (distance : list Qc) : list Qc :=
  let base_m := lat_base * deg_2_m in
  let est_m := map (fun d => d + base_m) distance in
  map (fun e => e / deg_2_m) est_m.

(** *** [relative_g] *)

Definition relative_g (g_obs : list Qc) : result (list Qc) :=
  g0 ← getitem g_obs 0;
  Ok (map (fun g => g - g0) g_obs).

(** *** [drift_correction] *)

(** [np.where(station == label)[0]]: the indices, ascending, at which
    [label] stands; [where_from k] numbers the first element [k]. *)
Fixpoint where_from (k : nat) (label : string) (station : list string)
  : list nat :=
  match station with
  | [] => []
  | s :: station' =>
      if String.eqb s label
      then k :: where_from (S k) label station'
      else where_from (S k) label station'
  end.

Definition where_eq (station : list string) (label : string) : list nat :=
  where_from 0 label station.

(** The local variables of the loop.  [initial_time] and [final_time] are
    bound only inside the branch of the loop, and nothing reads them. *)
Record locals := Locals {
  g_dc : list fnum;
  base_dc : fnum;
  initial_g : Qc;
  final_g : Qc;
  initial_t : Qc;
  final_t : Qc;
  initial_time : option Qc;
  final_time : option Qc;
  j : nat
}.

(** [i - 1 != 0 and i - 1 in idxs]; for [i = 0] the index [i - 1] is [-1],
    which is no element of [idxs]. *)
Definition advances (i : nat) (idxs : list nat) : bool :=
  match i with
  | O => false
  | S p => negb (p =? 0)%nat && existsb (Nat.eqb p) idxs
  end.

Section Loop.

Variables (time g_read : list Qc) (idxs : list nat).

Definition advance (i : nat) (st : locals) : result locals :=
  let j' := S (j st) in
  initial_g' ← getitem g_read (i - 1);
  bg ← getitem idxs j';
  final_g' ← getitem g_read bg;
  initial_time' ← getitem time (i - 1);
  bt ← getitem idxs j';
  final_time' ← getitem time bt;
  base_dc' ← getitem (g_dc st) (i - 1);
  Ok {| g_dc := g_dc st; base_dc := base_dc';
        initial_g := initial_g'; final_g := final_g';
        initial_t := initial_t st; final_t := final_t st;
        initial_time := Some initial_time'; final_time := Some final_time';
        j := j' |}.

(** The assignment [g_dc[i] = ...] of the loop. *)
Definition interpolate (i : nat) (st : locals) : result locals :=
  time_i ← getitem time i;
  let v := fadd (fmul (fdiv (fsub (final_g st) (initial_g st))
                            (fsub (final_t st) (initial_t st)))
                      (fsub time_i (initial_t st)))
                (base_dc st) in
  Ok {| g_dc := <[i := v]> (g_dc st); base_dc := base_dc st;
        initial_g := initial_g st; final_g := final_g st;
        initial_t := initial_t st; final_t := final_t st;
        initial_time := initial_time st; final_time := final_time st;
        j := j st |}.

Definition loop_body (i : nat) (st : locals) : result locals :=
  st' ← (if advances i idxs then advance i st else Ok st);
  interpolate i st'.

End Loop.

Definition drift_correction (time g_read : list Qc) (station : list string)
  : result (list fnum) :=
  let g_dc0 := replicate (length g_read) (Fin 0) in
  let base_dc0 := Fin 0 in
  label ← getitem station 0;
  let idxs := where_eq station label in
  initial_g0 ← getitem g_read 0;
  bg ← getitem idxs 1;
  final_g0 ← getitem g_read bg;
  initial_t0 ← getitem time 0;
  bt ← getitem idxs 1;
  final_t0 ← getitem time bt;
  st ← for_range (loop_body time g_read idxs) (seq 0 (length g_dc0))
          {| g_dc := g_dc0; base_dc := base_dc0;
             initial_g := initial_g0; final_g := final_g0;
             initial_t := initial_t0; final_t := final_t0;
             initial_time := None; final_time := None;
             j := 1 |};
  Ok (g_dc st).

(** *** [air_correction] *)

Definition air_correction (h : list Qc) : list Qc :=
  map (fun x => - float 0.3086 * x) h.

(** *** [bouguer_correction] *)

Definition bouguer_correction (rho : Qc) (h : list Qc) : list Qc :=
  map (fun x => float 0.04192 * rho * x) h.

(** *** Vocabulary for the statements about [drift_correction] *)

Local Close Scope Qc_scope.

(** The base revisits [B = {b0 = 0, b1, ...}] of a station sequence. *)
Definition base_revisits (station : list string) : list nat :=
  match station with
  | [] => []
  | label :: _ => where_eq station label
  end.

(** The base label stands at no index after the first. *)
Definition never_recurs (station : list string) : Prop :=
  forall label i, station !! 0 = Some label -> 0 < i ->
                  station !! i <> Some label.

(** Segment [k] lies between the base revisits [idxs[k]] and [idxs[k+1]]:
    it holds the records after the first and up to the second; segment 0
    also holds record 0. *)
Definition in_segment (idxs : list nat) (k i : nat) : Prop :=
  exists b b', idxs !! k = Some b /\ idxs !! S k = Some b' /\
               (k = 0 \/ b < i) /\ i <= b'.

(** Linear interpolation between the readings [(start_t, start_g)] and
    [(end_t, end_g)], on top of [anchor]. *)
Definition interpolation (start_t start_g end_t end_g time_i : Qc)
    (anchor : fnum) : fnum :=
  fadd (fmul (fdiv (fsub end_g start_g) (fsub end_t start_t))
             (fsub time_i start_t))
       anchor.

(** What a segment is anchored at: nothing for the first, the drift value
    at the base revisit that opens it for the later ones. *)
Definition anchor_of (k b : nat) (d : list fnum) : option fnum :=
  match k with
  | O => Some (Fin 0)
  | S _ => d !! b
  end.

Section Invariant.

Variables (time g_read : list Qc) (idxs : list nat) (t0 t1 : Qc).

(** The drift value of record [i] of segment [k], as the loop writes it:
    the readings are those of the segment's two base revisits, the two
    times are [t0] and [t1] whatever the segment. *)
Definition written (d : list fnum) (k i : nat) : Prop :=
  exists b b' gb gb' ti a,
    idxs !! k = Some b /\ idxs !! S k = Some b' /\
    g_read !! b = Some gb /\ g_read !! b' = Some gb' /\
    time !! i = Some ti /\ anchor_of k b d = Some a /\
    d !! i = Some (interpolation t0 gb t1 gb' ti a).

(** The loop invariant.  The locals describe segment [k] of the base
    revisits; [inv] holds before iteration [i], when the segment may still
    have to advance, and [ready] between the branch and the assignment of
    iteration [i], when record [i] lies in segment [k]. *)
Definition inv_at (before : bool) (i : nat) (st : locals) : Prop :=
  length (g_dc st) = length g_read /\
  initial_t st = t0 /\ final_t st = t1 /\
  (exists k b b',
      j st = S k /\ idxs !! k = Some b /\ idxs !! S k = Some b' /\
      g_read !! b = Some (initial_g st) /\
      g_read !! b' = Some (final_g st) /\
      anchor_of k b (g_dc st) = Some (base_dc st) /\
      (k = 0 \/ (if before then S b else b) < i) /\
      i <= (if before then S b' else b')) /\
  (forall i' k', i' < i -> in_segment idxs k' i' -> written (g_dc st) k' i').

Definition inv : nat -> locals -> Prop := inv_at true.
Definition ready : nat -> locals -> Prop := inv_at false.

(** The invariant of a run whose two time bounds are equal. *)
Definition inv_degenerate (i : nat) (st : locals) : Prop :=
  length (g_dc st) = length g_read /\
  initial_t st = final_t st /\
  (forall i', i' < i -> i' < length g_read ->
              g_dc st !! i' = Some NonFinite).

End Invariant.

(** The inputs on which the loop reads no index out of range: arrays of
    one length, at least two records, the last one taken at the base. *)
Definition well_formed (time g_read : list Qc) (station : list string)
  : Prop :=
  length time = length g_read /\
  length station = length g_read /\
  2 <= length g_read /\
  station !! (length g_read - 1) = station !! 0.

(** The seconds since midnight of a time of day. *)
Definition seconds (t : clock) : Z :=
  (3600 * hour t + 60 * minute t + second t)%Z.

(** The components of a time of day are in their ranges. *)
Definition valid_clock (t : clock) : Prop :=
  (0 <= hour t < 24 /\ 0 <= minute t < 60 /\ 0 <= second t < 60)%Z.

Definition is_finite (x : fnum) : Prop := exists q, x = Fin q.

End Rational.

(** ** Trigonometric part *)

Module Trig.

Local Open Scope R_scope.

(** [np.deg2rad]. *)
Definition deg2rad (x : R) : R := x * (PI / 180).

(** *** [gn] *)

Definition gn (latitude : list R) : list R :=
  let latitude := map deg2rad latitude in
  map (fun l => 978031.846 * (1 + 0.0053024 * sin l ^ 2 - 0.0000058 * sin (2 * l)))
      latitude.

(** *** [latitude_correction] *)

(** The optional arguments default to [None]; [None - base_latitude]
    raises [TypeError]. *)
Definition latitude_correction (base_latitude : R)
    (st_latitude distance : option (list R)) : result (list R) :=
  match distance with
  | None =>
      let r := 6367.44 in
      dl ← match st_latitude with
           | Some st => Ok (map (fun s => s - base_latitude) st)
           | None => Raise TypeError
           end;
      let dy := map (fun d => r * d) dl in
      let base_latitude := deg2rad base_latitude in
      Ok (map (fun y => 0.811 * sin (2 * base_latitude) * y) dy)
  | Some distance =>
      let base_latitude := deg2rad base_latitude in
      Ok (map (fun d => 0.811 * sin (2 * base_latitude) * d) distance)
  end.

End Trig.

(** * Properties *)

(** ** The exception monad and the loop *)

Lemma bind_Ok {A B} (r : result A) (k : A -> result B) (b : B) :
  (r ≫= k) = Ok b <-> exists a, r = Ok a /\ k a = Ok b.
Proof.
  destruct r as [a|e]; simpl; split.
  - intros H. by exists a.
  - by intros (a' & [= ->] & H).
  - discriminate.
  - by intros (a' & [=] & _).
Qed.

Lemma getitem_Ok {A} (a : list A) (i : nat) (x : A) :
  getitem a i = Ok x <-> a !! i = Some x.
Proof.
  unfold getitem. destruct (a !! i); split; congruence.
Qed.

Lemma getitem_lt {A} (a : list A) (i : nat) :
  i < length a -> exists x, getitem a i = Ok x /\ a !! i = Some x.
Proof.
  intros Hi. destruct (lookup_lt_is_Some_2 a i Hi) as [x Hx].
  exists x. split; [by apply getitem_Ok | done].
Qed.

Lemma getitem_ge {A} (a : list A) (i : nat) :
  length a <= i -> getitem a i = Raise IndexError.
Proof.
  intros Hi. unfold getitem. by rewrite lookup_ge_None_2.
Qed.

(** Invariant rule for a loop that ends without an exception. *)
Lemma for_range_inv {St} (P : nat -> St -> Prop) (body : nat -> St -> result St)
    (len lo : nat) (st st' : St) :
  P lo st ->
  (forall i s s', lo <= i < lo + len -> P i s -> body i s = Ok s' -> P (S i) s') ->
  for_range body (seq lo len) st = Ok st' ->
  P (lo + len) st'.
Proof.
  revert lo st. induction len as [|len IH]; intros lo st HP Hstep; simpl.
  - intros [= <-]. by rewrite Nat.add_0_r.
  - intros (s1 & Hb & Hrest)%bind_Ok.
    replace (lo + S len) with (S lo + len) by lia.
    apply (IH (S lo) s1); [|intros; eapply Hstep; eauto; lia|done].
    eapply Hstep; eauto. lia.
Qed.

(** Invariant rule for a loop whose body raises nothing under the
    invariant: the loop ends without an exception. *)
Lemma for_range_total {St} (P : nat -> St -> Prop) (body : nat -> St -> result St)
    (len lo : nat) (st : St) :
  P lo st ->
  (forall i s, lo <= i < lo + len -> P i s ->
               exists s', body i s = Ok s' /\ P (S i) s') ->
  exists st', for_range body (seq lo len) st = Ok st' /\ P (lo + len) st'.
Proof.
  revert lo st. induction len as [|len IH]; intros lo st HP Hstep; simpl.
  - exists st. by rewrite Nat.add_0_r.
  - destruct (Hstep lo st) as (s1 & Hb & HP1); [lia|done|].
    destruct (IH (S lo) s1) as (st' & Hrun & HP'); [done| |].
    { intros i s Hi. apply Hstep. lia. }
    exists st'. rewrite Hb. simpl. split; [done|].
    by replace (lo + S len) with (S lo + len) by lia.
Qed.

(** ** The base revisits *)

Import Rational.

Lemma elem_of_where_from (k : nat) (label : string) (station : list string)
    (b : nat) :
  b ∈ where_from k label station <->
  exists i, b = k + i /\ station !! i = Some label.
Proof.
  revert k. induction station as [|s station IH]; intros k; simpl.
  - split; [by intros ?%elem_of_nil | by intros (i & _ & ?)].
  - destruct (String.eqb_spec s label) as [->|Hne].
    + rewrite elem_of_cons, IH. split.
      * intros [->|(i & -> & Hi)]; [exists 0 | exists (S i)]; split; simpl; auto; lia.
      * intros ([|i] & -> & Hi); [left; lia|right]. exists i. split; [lia|done].
    + rewrite IH. split.
      * intros (i & -> & Hi). exists (S i). split; [lia|done].
      * intros ([|i] & -> & Hi); simpl in Hi; [congruence|].
        exists i. split; [lia|done].
Qed.

Lemma where_from_lt (k : nat) (label : string) (station : list string)
    (a b x y : nat) :
  where_from k label station !! a = Some x ->
  where_from k label station !! b = Some y ->
  a < b -> x < y.
Proof.
  revert k a b. induction station as [|s station IH]; intros k a b; simpl.
  - by rewrite lookup_nil.
  - destruct (String.eqb s label); [|by apply IH].
    destruct a as [|a], b as [|b]; simpl; try lia.
    + intros [= <-] Hy _.
      assert (y ∈ where_from (S k) label station) as (i & -> & _)%elem_of_where_from
        by (apply list_elem_of_lookup; eauto).
      lia.
    + intros Hx Hy Hab. apply (IH (S k) a b); auto; lia.
Qed.

Lemma where_eq_le (station : list string) (label : string) (a b x y : nat) :
  where_eq station label !! a = Some x ->
  where_eq station label !! b = Some y ->
  a <= b -> x <= y.
Proof.
  intros Hx Hy Hab. destruct (decide (a = b)) as [->|Hne].
  - rewrite Hx in Hy. injection Hy as ->. lia.
  - enough (x < y) by lia. eapply where_from_lt; eauto; lia.
Qed.

Lemma where_eq_head (station : list string) (label : string) :
  station !! 0 = Some label -> where_eq station label !! 0 = Some 0.
Proof.
  destruct station as [|s station]; simpl; [done|].
  intros [= ->]. unfold where_eq. simpl. by rewrite String.eqb_refl.
Qed.

Lemma elem_of_where_eq (station : list string) (label : string) (b : nat) :
  b ∈ where_eq station label <-> station !! b = Some label.
Proof.
  unfold where_eq. rewrite elem_of_where_from. split.
  - by intros (i & -> & Hi).
  - intros Hb. by exists b.
Qed.

Lemma base_revisits_eq (station : list string) (label : string) :
  station !! 0 = Some label -> base_revisits station = where_eq station label.
Proof.
  destruct station; simpl; [done|]. by intros [= ->].
Qed.

Lemma never_recurs_revisits (station : list string) :
  never_recurs station -> length (base_revisits station) < 2.
Proof.
  intros Hnever. destruct (station !! 0) as [label|] eqn:H0.
  - rewrite (base_revisits_eq _ label H0).
    destruct (where_eq station label !! 1) as [b|] eqn:H1.
    + assert (0 < b).
      { eapply (where_from_lt 0 label station 0 1); [by apply where_eq_head|done|lia]. }
      exfalso. apply (Hnever label b H0); [done|].
      apply elem_of_where_eq, list_elem_of_lookup. eauto.
    + apply lookup_ge_None_1 in H1. lia.
  - destruct station; simpl in *; [lia|done].
Qed.

Lemma advances_spec (i : nat) (idxs : list nat) :
  advances i idxs = true <-> exists p, i = S p /\ p <> 0 /\ p ∈ idxs.
Proof.
  destruct i as [|p]; simpl.
  - split; [done | by intros (p & ? & _)].
  - rewrite andb_true_iff, negb_true_iff, Nat.eqb_neq, existsb_exists. split.
    + intros (Hp & x & Hx%list_elem_of_In & ->%Nat.eqb_eq). eauto.
    + intros (p' & [= <-] & Hp & Hin). split; [done|].
      exists p. split; [by apply list_elem_of_In | apply Nat.eqb_refl].
Qed.

(** ** The loop of [drift_correction] *)

Section LoopFacts.

Variables (time g_read : list Qc) (station : list string) (label : string).
Variables (t0 t1 : Qc).
Hypothesis base_label : station !! 0 = Some label.

Lemma idxs_pos (k b' : nat) :
  where_eq station label !! S k = Some b' -> 0 < b'.
Proof using base_label.
  intros Hb'. eapply (where_from_lt 0 label station 0 (S k));
    [by apply where_eq_head | done | lia].
Qed.

(** The branch is taken exactly after the base revisit that ends the
    segment of the locals. *)
Lemma advances_at_end (i k b b' : nat) :
  where_eq station label !! k = Some b ->
  where_eq station label !! S k = Some b' ->
  k = 0 \/ S b < i -> i <= S b' ->
  advances i (where_eq station label) = true -> i = S b'.
Proof using base_label.
  intros Hb Hb' Hlo Hhi (p & -> & Hp & (m & Hm)%list_elem_of_lookup)%advances_spec.
  destruct (decide (m <= k)) as [Hmk|Hmk].
  - pose proof (where_eq_le _ _ _ _ _ _ Hm Hb Hmk).
    destruct Hlo as [->|]; [|lia].
    assert (m = 0) as -> by lia.
    rewrite (where_eq_head _ _ base_label) in Hm. congruence.
  - assert (b' <= p); [|lia].
    eapply (where_eq_le station label (S k) m); eauto; lia.
Qed.

Lemma not_advances_before_end (i k b' : nat) :
  where_eq station label !! S k = Some b' -> i <= S b' ->
  advances i (where_eq station label) = false -> i <= b'.
Proof using base_label.
  intros Hb' Hhi Hadv. destruct (decide (i = S b')) as [->|]; [|lia].
  assert (advances (S b') (where_eq station label) = true); [|congruence].
  apply advances_spec. exists b'. split; [done|]. split.
  - pose proof (idxs_pos _ _ Hb'). lia.
  - apply list_elem_of_lookup. eauto.
Qed.

Lemma branch_ready (i : nat) (st st1 : locals) :
  inv time g_read (where_eq station label) t0 t1 i st ->
  (if advances i (where_eq station label)
   then advance time g_read (where_eq station label) i st
   else Ok st) = Ok st1 ->
  ready time g_read (where_eq station label) t0 t1 i st1.
Proof using base_label.
  intros (Hlen & Ht0 & Ht1 & Hseg & Hw).
  destruct Hseg as (k & b & b' & Hj & Hb & Hb' & Hg & Hg' & Hanc & Hlo & Hhi).
  destruct (advances i (where_eq station label)) eqn:Hadv.
  - pose proof (advances_at_end _ _ _ _ Hb Hb' Hlo Hhi Hadv) as ->.
    unfold advance. simpl. rewrite Nat.sub_0_r, Hj.
    intros (ig & Hig%getitem_Ok & H)%bind_Ok.
    apply bind_Ok in H as (bg & Hbg%getitem_Ok & H).
    apply bind_Ok in H as (fg & Hfg%getitem_Ok & H).
    apply bind_Ok in H as (it & Hit%getitem_Ok & H).
    apply bind_Ok in H as (bt & Hbt%getitem_Ok & H).
    apply bind_Ok in H as (ft & Hft%getitem_Ok & H).
    apply bind_Ok in H as (bd & Hbd%getitem_Ok & H).
    injection H as <-. repeat split; simpl; auto.
    exists (S k), b', bg. repeat split; auto.
    enough (b' < bg) by lia.
    eapply (where_from_lt 0 label station (S k) (S (S k))); eauto.
  - intros [= <-]. repeat split; auto.
    exists k, b, b'. repeat split; auto; [lia|].
    eapply not_advances_before_end; eauto.
Qed.

Lemma in_segment_unique (k k' i : nat) :
  in_segment (where_eq station label) k i ->
  in_segment (where_eq station label) k' i -> k = k'.
Proof using Type.
  intros (b & b' & Hb & Hb' & Hlo & Hhi) (c & c' & Hc & Hc' & Hlo' & Hhi').
  destruct (lt_eq_lt_dec k k') as [[Hlt|Heq]|Hlt]; [|done|]; exfalso.
  - assert (b' <= c) by (eapply (where_eq_le station label (S k) k'); eauto; lia).
    lia.
  - assert (c' <= b) by (eapply (where_eq_le station label (S k') k); eauto; lia).
    lia.
Qed.

Lemma anchor_of_insert (k b i : nat) (v : fnum) (d : list fnum) :
  k = 0 \/ b < i -> anchor_of k b (<[i := v]> d) = anchor_of k b d.
Proof using Type.
  intros Hlo. destruct k as [|k]; simpl; [done|].
  apply list_lookup_insert_ne. lia.
Qed.

Lemma interpolate_inv (i : nat) (st1 st' : locals) :
  i < length g_read ->
  ready time g_read (where_eq station label) t0 t1 i st1 ->
  interpolate time i st1 = Ok st' ->
  inv time g_read (where_eq station label) t0 t1 (S i) st'.
Proof using base_label.
  intros Hi (Hlen & Ht0 & Ht1 & Hseg & Hw).
  destruct Hseg as (k & b & b' & Hj & Hb & Hb' & Hg & Hg' & Hanc & Hlo & Hhi).
  unfold interpolate. intros (ti & Hti%getitem_Ok & [= <-])%bind_Ok.
  split; [|split; [|split; [|split]]]; simpl; auto.
  - by rewrite length_insert.
  - exists k, b, b'. repeat split; auto; [|lia|lia].
    by rewrite anchor_of_insert.
  - intros i' k' Hi' Hin. destruct (decide (i' = i)) as [->|Hne].
    + assert (k' = k) as ->.
      { eapply in_segment_unique; [done|]. exists b, b'. auto. }
      exists b, b', (initial_g st1), (final_g st1), ti, (base_dc st1).
      repeat split; auto.
      * by rewrite anchor_of_insert.
      * rewrite list_lookup_insert_eq by lia. by rewrite Ht0, Ht1.
    + destruct (Hw i' k')
        as (c & c' & gc & gc' & ti' & a & Hc & Hc' & Hgc & Hgc' & Hti' & Ha & Hd);
        [lia|done|].
      exists c, c', gc, gc', ti', a. repeat split; auto.
      * rewrite anchor_of_insert; [done|].
        destruct Hin as (c2 & c2' & Hc2 & _ & Hlo2 & _).
        rewrite Hc in Hc2. injection Hc2 as <-. lia.
      * by rewrite list_lookup_insert_ne.
Qed.

Lemma loop_body_inv (i : nat) (st st' : locals) :
  i < length g_read ->
  inv time g_read (where_eq station label) t0 t1 i st ->
  loop_body time g_read (where_eq station label) i st = Ok st' ->
  inv time g_read (where_eq station label) t0 t1 (S i) st'.
Proof using base_label.
  intros Hi Hinv (st1 & Hbranch & Hint)%bind_Ok.
  eapply interpolate_inv; [done| |done]. eapply branch_ready; eauto.
Qed.

End LoopFacts.

(** ** What [drift_correction] returns *)

(** The straight-line part before the loop. *)
Lemma drift_correction_Ok (time g_read : list Qc) (station : list string)
    (d : list fnum) :
  drift_correction time g_read station = Ok d <->
  exists label g0 b1 g1 t0 t1 st,
    station !! 0 = Some label /\ g_read !! 0 = Some g0 /\
    where_eq station label !! 1 = Some b1 /\ g_read !! b1 = Some g1 /\
    time !! 0 = Some t0 /\ time !! b1 = Some t1 /\
    for_range (loop_body time g_read (where_eq station label))
      (seq 0 (length g_read))
      {| g_dc := replicate (length g_read) (Fin 0); base_dc := Fin 0;
         initial_g := g0; final_g := g1; initial_t := t0; final_t := t1;
         initial_time := None; final_time := None; j := 1 |} = Ok st /\
    d = g_dc st.
Proof.
  unfold drift_correction. rewrite length_replicate. split.
  - intros (label & Hl%getitem_Ok & H)%bind_Ok.
    apply bind_Ok in H as (g0 & Hg0%getitem_Ok & H).
    apply bind_Ok in H as (b1 & Hb1%getitem_Ok & H).
    apply bind_Ok in H as (g1 & Hg1%getitem_Ok & H).
    apply bind_Ok in H as (t0 & Ht0%getitem_Ok & H).
    apply bind_Ok in H as (b1' & Hb1'%getitem_Ok & H).
    apply bind_Ok in H as (t1 & Ht1%getitem_Ok & H).
    apply bind_Ok in H as (st & Hrun & [= <-]).
    assert (b1' = b1) as -> by congruence.
    exists label, g0, b1, g1, t0, t1, st. auto 10.
  - intros (label & g0 & b1 & g1 & t0 & t1 & st & H).
    destruct H as (Hl & Hg0 & Hb1 & Hg1 & Ht0 & Ht1 & Hrun & ->).
    apply getitem_Ok in Hl, Hg0, Hb1, Hg1, Ht0, Ht1.
    rewrite Hl. simpl. rewrite Hg0. simpl. rewrite Hb1. simpl.
    rewrite Hg1. simpl. rewrite Ht0. simpl. rewrite Ht1. simpl.
    by rewrite Hrun.
Qed.

Lemma inv_init (time g_read : list Qc) (station : list string)
    (label : string) (g0 g1 t0 t1 : Qc) (b1 : nat) :
  station !! 0 = Some label -> g_read !! 0 = Some g0 ->
  where_eq station label !! 1 = Some b1 -> g_read !! b1 = Some g1 ->
  inv time g_read (where_eq station label) t0 t1 0
    {| g_dc := replicate (length g_read) (Fin 0); base_dc := Fin 0;
       initial_g := g0; final_g := g1; initial_t := t0; final_t := t1;
       initial_time := None; final_time := None; j := 1 |}.
Proof.
  intros Hl Hg0 Hb1 Hg1. repeat split; simpl; auto.
  - apply length_replicate.
  - exists 0, 0, b1. repeat split; auto; [by apply where_eq_head|lia].
  - intros i' k' Hi'. lia.
Qed.

(** Every record of every segment holds the interpolation of the
    segment's two base readings over the times [time[0]] and
    [time[idxs[1]]], on top of the segment's anchor. *)
Lemma drift_correction_written (time g_read : list Qc)
    (station : list string) (d : list fnum) :
  drift_correction time g_read station = Ok d ->
  exists label b1 t0 t1,
    station !! 0 = Some label /\
    where_eq station label !! 1 = Some b1 /\
    time !! 0 = Some t0 /\ time !! b1 = Some t1 /\
    length d = length g_read /\
    forall i k, i < length g_read ->
                in_segment (where_eq station label) k i ->
                written time g_read (where_eq station label) t0 t1 d k i.
Proof.
  intros (label & g0 & b1 & g1 & t0 & t1 & st & H)%drift_correction_Ok.
  destruct H as (Hl & Hg0 & Hb1 & Hg1 & Ht0 & Ht1 & Hrun & ->).
  exists label, b1, t0, t1. do 4 (split; [done|]).
  apply (for_range_inv (fun i st => inv time g_read (where_eq station label) t0 t1 i st))
    in Hrun.
  - destruct Hrun as (Hlen & _ & _ & _ & Hw). split; [done|].
    intros i k Hi. by apply Hw.
  - by eapply inv_init.
  - intros i s s' Hi. apply loop_body_inv; [done|lia].
Qed.

(** ** Runs that raise nothing *)

Section Total.

Variables (time g_read : list Qc) (station : list string) (label : string).
Variables (t0 t1 : Qc).
Hypothesis base_label : station !! 0 = Some label.
Hypothesis time_length : length time = length g_read.
Hypothesis station_length : length station = length g_read.
Hypothesis base_last : station !! (length g_read - 1) = Some label.

Lemma idxs_in_range (m b : nat) :
  where_eq station label !! m = Some b -> b < length g_read.
Proof using station_length.
  intros Hm. rewrite <- station_length. eapply lookup_lt_Some.
  apply elem_of_where_eq, list_elem_of_lookup. eauto.
Qed.

(** A base revisit before the last record is followed by another one. *)
Lemma idxs_next (m b : nat) :
  where_eq station label !! m = Some b -> S b < length g_read ->
  exists b', where_eq station label !! S m = Some b'.
Proof using time_length station_length base_last.
  intros Hm Hb.
  assert (length g_read - 1 ∈ where_eq station label)
    as (m' & Hm')%list_elem_of_lookup
    by by apply elem_of_where_eq.
  apply lookup_lt_is_Some_2. apply lookup_lt_Some in Hm' as Hlt.
  destruct (decide (m' <= m)) as [Hle|]; [|lia].
  pose proof (where_eq_le _ _ _ _ _ _ Hm' Hm Hle). lia.
Qed.

Lemma loop_body_total (i : nat) (st : locals) :
  i < length g_read ->
  inv time g_read (where_eq station label) t0 t1 i st ->
  exists st', loop_body time g_read (where_eq station label) i st = Ok st'.
Proof using base_label time_length station_length base_last.
  intros Hi Hinv.
  destruct (getitem_lt time i) as (ti & Hti & _); [lia|].
  assert (exists st1, (if advances i (where_eq station label)
                       then advance time g_read (where_eq station label) i st
                       else Ok st) = Ok st1) as (st1 & Hst1).
  { destruct Hinv as (Hlen & _ & _ & Hseg & _).
    destruct Hseg as (k & b & b' & Hj & Hb & Hb' & _ & _ & _ & Hlo & Hhi).
    destruct (advances i (where_eq station label)) eqn:Hadv; [|by eexists].
    pose proof (advances_at_end _ _ base_label _ _ _ _ Hb Hb' Hlo Hhi Hadv) as ->.
    destruct (idxs_next _ _ Hb' Hi) as (b'' & Hb'').
    pose proof (idxs_in_range _ _ Hb'') as Hlt.
    unfold advance. simpl. rewrite Nat.sub_0_r, Hj.
    destruct (getitem_lt g_read b') as (ig & -> & _); [lia|]. simpl.
    rewrite (proj2 (getitem_Ok _ _ _) Hb''). simpl.
    destruct (getitem_lt g_read b'') as (fg & -> & _); [lia|]. simpl.
    destruct (getitem_lt time b') as (it & -> & _); [lia|]. simpl.
    destruct (getitem_lt time b'') as (ft & -> & _); [lia|]. simpl.
    destruct (getitem_lt (g_dc st) b') as (bd & -> & _); [lia|]. simpl.
    by eexists. }
  unfold loop_body. rewrite Hst1. simpl. unfold interpolate.
  rewrite Hti. simpl. by eexists.
Qed.

End Total.

(** On well-formed inputs [drift_correction] raises nothing. *)
Lemma drift_correction_returns (time g_read : list Qc)
    (station : list string) :
  well_formed time g_read station ->
  exists d, drift_correction time g_read station = Ok d.
Proof.
  intros (Htime & Hstation & Hlen & Hlast).
  destruct (lookup_lt_is_Some_2 station 0) as [label Hl]; [lia|].
  rewrite Hl in Hlast.
  destruct (lookup_lt_is_Some_2 g_read 0) as [g0 Hg0]; [lia|].
  destruct (lookup_lt_is_Some_2 time 0) as [t0 Ht0]; [lia|].
  assert (exists b1, where_eq station label !! 1 = Some b1) as (b1 & Hb1).
  { eapply (idxs_next time g_read); [done..|by apply where_eq_head|lia]. }
  assert (b1 < length g_read) as Hlt by (eapply idxs_in_range; eauto).
  destruct (lookup_lt_is_Some_2 g_read b1) as [g1 Hg1]; [lia|].
  destruct (lookup_lt_is_Some_2 time b1) as [t1 Ht1]; [lia|].
  destruct (for_range_total
              (fun i st => inv time g_read (where_eq station label) t0 t1 i st)
              (loop_body time g_read (where_eq station label))
              (length g_read) 0
              {| g_dc := replicate (length g_read) (Fin 0); base_dc := Fin 0;
                 initial_g := g0; final_g := g1; initial_t := t0; final_t := t1;
                 initial_time := None; final_time := None; j := 1 |})
    as (st & Hrun & _).
  - by eapply inv_init.
  - intros i s Hi Hinv.
    assert (exists s', loop_body time g_read (where_eq station label) i s = Ok s')
      as (s' & Hs') by (eapply loop_body_total; eauto; lia).
    exists s'. split; [done|]. eapply loop_body_inv; eauto. lia.
  - exists (g_dc st). apply drift_correction_Ok.
    exists label, g0, b1, g1, t0, t1, st. auto 10.
Qed.

(** ** Runs with equal time bounds *)

Lemma is_zero_spec (x : Qc) : is_zero x = true <-> x = 0%Qc.
Proof.
  unfold is_zero. rewrite Qeq_bool_iff. split.
  - intros H. by apply Qc_is_canon.
  - by intros ->.
Qed.

Lemma to_float_0 : to_float 0 = Fin 0.
Proof. reflexivity. Qed.

Lemma fsub_diag (t : Qc) : fsub t t = Fin 0.
Proof.
  unfold fsub. replace (t - t)%Qc with 0%Qc by ring. apply to_float_0.
Qed.

Lemma fdiv_zero (x : fnum) : fdiv x (Fin 0) = NonFinite.
Proof. reflexivity. Qed.

Lemma loop_body_degenerate (time g_read : list Qc) (idxs : list nat)
    (i : nat) (st st' : locals) :
  i < length g_read ->
  inv_degenerate g_read i st ->
  loop_body time g_read idxs i st = Ok st' ->
  inv_degenerate g_read (S i) st'.
Proof.
  intros Hi (Hlen & Ht & Hd) (st1 & Hbranch & Hint)%bind_Ok.
  assert (g_dc st1 = g_dc st /\ initial_t st1 = initial_t st
          /\ final_t st1 = final_t st) as (Hg & Hi1 & Hf1).
  { destruct (advances i idxs); [|by injection Hbranch as <-].
    unfold advance in Hbranch.
    repeat (apply bind_Ok in Hbranch as (? & _ & Hbranch)).
    by injection Hbranch as <-. }
  unfold interpolate in Hint.
  apply bind_Ok in Hint as (ti & _ & [= <-]).
  rewrite Hf1, Hi1, Hg, <- Ht, (fsub_diag (initial_t st)), fdiv_zero.
  unfold fmul, fadd. repeat split; cbn [g_dc initial_t final_t]; auto.
  - by rewrite length_insert.
  - intros i' Hi' Hlt. destruct (decide (i' = i)) as [->|].
    + apply list_lookup_insert_eq. lia.
    + rewrite list_lookup_insert_ne by done. apply Hd; [lia|done].
Qed.

Lemma drift_correction_degenerate (time g_read : list Qc)
    (station : list string) (label : string) (b1 : nat) (t : Qc)
    (d : list fnum) :
  station !! 0 = Some label -> where_eq station label !! 1 = Some b1 ->
  time !! 0 = Some t -> time !! b1 = Some t ->
  drift_correction time g_read station = Ok d ->
  d = replicate (length g_read) NonFinite.
Proof.
  intros Hl Hb1 Ht0 Ht1.
  intros (label' & g0 & b1' & g1 & t0' & t1' & st & H)%drift_correction_Ok.
  destruct H as (Hl' & Hg0 & Hb1' & Hg1 & Ht0' & Ht1' & Hrun & ->).
  assert (label' = label) as -> by congruence.
  assert (b1' = b1) as -> by congruence.
  assert (t0' = t) as -> by congruence.
  assert (t1' = t) as -> by congruence.
  apply (for_range_inv (fun i st => inv_degenerate g_read i st)) in Hrun.
  - destruct Hrun as (Hlen & _ & Hd). apply list_eq. intros i.
    destruct (decide (i < length g_read)) as [Hi|Hi].
    + rewrite Hd by done. symmetry. by apply lookup_replicate_2.
    + rewrite !lookup_ge_None_2; [done| |]; rewrite ?length_replicate; lia.
  - repeat split; simpl; [apply length_replicate|]. intros i' Hi'. lia.
  - intros i s s' Hi. apply loop_body_degenerate. lia.
Qed.

(** ** The drift values *)

Lemma interpolation_start (t0 g0 t1 g1 : Qc) :
  is_finite (fdiv (fsub g1 g0) (fsub t1 t0)) ->
  interpolation t0 g0 t1 g1 t0 (Fin 0) = Fin 0.
Proof.
  intros (s & Hs). unfold interpolation. rewrite Hs, fsub_diag.
  unfold fmul. replace (s * 0)%Qc with 0%Qc by ring.
  rewrite to_float_0. reflexivity.
Qed.

Lemma drift_correction_first (time g_read : list Qc) (station : list string)
    (d : list fnum) (label : string) (b1 : nat) (g0 g1 t0 t1 : Qc) :
  station !! 0 = Some label -> where_eq station label !! 1 = Some b1 ->
  g_read !! 0 = Some g0 -> g_read !! b1 = Some g1 ->
  time !! 0 = Some t0 -> time !! b1 = Some t1 ->
  is_finite (fdiv (fsub g1 g0) (fsub t1 t0)) ->
  drift_correction time g_read station = Ok d ->
  d !! 0 = Some (Fin 0).
Proof.
  intros Hl Hb1 Hg0 Hg1 Ht0 Ht1 Hfin Hrun.
  apply drift_correction_written in Hrun
    as (label' & b1' & t0' & t1' & Hl' & Hb1' & Ht0' & Ht1' & _ & Hw).
  assert (label' = label) as -> by congruence.
  assert (b1' = b1) as -> by congruence.
  assert (t0' = t0) as -> by congruence.
  assert (t1' = t1) as -> by congruence.
  destruct (Hw 0 0)
    as (b & b' & gb & gb' & ti & a & Hb & Hb' & Hgb & Hgb' & Hti & Ha & Hd).
  - by apply lookup_lt_Some in Hg0.
  - exists 0, b1. repeat split; auto; [by apply where_eq_head|lia].
  - rewrite (where_eq_head _ _ Hl) in Hb. injection Hb as <-.
    assert (b' = b1) as -> by congruence.
    assert (gb = g0) as -> by congruence.
    assert (gb' = g1) as -> by congruence.
    assert (ti = t0) as -> by congruence.
    simpl in Ha. injection Ha as <-.
    by rewrite Hd, interpolation_start.
Qed.

(** C1 (the claim fails on the code).  On the two-segment survey
    [time = [0,1,2,3,4]], [station = [B,S1,B,S2,B]],
    [g_read = [100,102,104,106,108]] record 3 lies in the second segment,
    whose bounds are the readings [(2, 104)] and [(4, 108)] and whose
    anchor is 4: interpolating over these bounds gives 6, and the function
    returns 10 there, the interpolation over the time pair [(0, 2)] of the
    first segment. *)
Theorem drift_correction_stale_time_bounds :
  drift_correction (floats [0; 1; 2; 3; 4]%Q)
                   (floats [100; 102; 104; 106; 108]%Q)
                   ["B"; "S1"; "B"; "S2"; "B"]%string
  = Ok (map Fin (floats [0; 2; 4; 10; 12]%Q)) /\
  interpolation (float 2) (float 104) (float 4) (float 108) (float 3)
                (Fin (float 4)) = Fin (float 6) /\
  interpolation (float 0) (float 104) (float 2) (float 108) (float 3)
                (Fin (float 4)) = Fin (float 10).
Proof.
  repeat split; vm_compute; repeat f_equal; apply Qc_is_canon; reflexivity.
Qed.

(** C2.  On the single-segment survey [time = [0,1,2,3]],
    [station = [B,S1,S2,B]], [g_read = [100,101,102,106]] the function
    returns [[0, 2, 4, 6]]. *)
Theorem drift_correction_single_segment :
  drift_correction (floats [0; 1; 2; 3]%Q)
                   (floats [100; 101; 102; 106]%Q)
                   ["B"; "S1"; "S2"; "B"]%string
  = Ok (map Fin (floats [0; 2; 4; 6]%Q)).
Proof.
  vm_compute. repeat f_equal; apply Qc_is_canon; reflexivity.
Qed.

(** C3.  The drift accumulates across segments: every record [i] of a
    segment opened at a base revisit [b <> 0] holds its interpolation term
    plus the drift value returned for [b], so the anchor of a later segment
    is the final drift value of the segment before it and not 0.  On the
    two-segment survey [time = [0,1,2,3,4]], [station = [B,S1,B,S2,B]],
    [g_read = [100,102,104,?,108]] the values of the second segment are
    their terms 6 and 8 on top of the value 4 returned at the revisit. *)
Theorem drift_correction_anchored :
  (forall (time g_read : list Qc) (station : list string) (d : list fnum)
          (label : string) (k b b' i : nat),
      drift_correction time g_read station = Ok d ->
      station !! 0 = Some label ->
      where_eq station label !! k = Some b ->
      where_eq station label !! S k = Some b' ->
      1 <= k -> b < i <= b' -> i < length g_read ->
      exists gb gb' b1 t0 t1 ti anchor,
        g_read !! b = Some gb /\ g_read !! b' = Some gb' /\
        where_eq station label !! 1 = Some b1 /\
        time !! 0 = Some t0 /\ time !! b1 = Some t1 /\ time !! i = Some ti /\
        d !! b = Some anchor /\
        d !! i = Some (fadd (fmul (fdiv (fsub gb' gb) (fsub t1 t0))
                                  (fsub ti t0))
                            anchor)) /\
  (forall g3 : Qc,
      drift_correction (floats [0; 1; 2; 3; 4]%Q)
                       [float 100; float 102; float 104; g3; float 108]
                       ["B"; "S1"; "B"; "S2"; "B"]%string
      = Ok [Fin (float 0); Fin (float 2); Fin (float 4);
            fadd (Fin (float 6)) (Fin (float 4));
            fadd (Fin (float 8)) (Fin (float 4))]).
Proof.
  split.
  - intros time g_read station d label k b b' i Hrun Hl Hb Hb' Hk Hi Hlt.
    apply drift_correction_written in Hrun
      as (label' & b1 & t0 & t1 & Hl' & Hb1 & Ht0 & Ht1 & _ & Hw).
    assert (label' = label) as -> by congruence.
    destruct (Hw i k)
      as (c & c' & gb & gb' & ti & a & Hc & Hc' & Hgb & Hgb' & Hti & Ha & Hd);
      [done| |].
    { exists b, b'. repeat split; auto; lia. }
    assert (c = b) as -> by congruence.
    assert (c' = b') as -> by congruence.
    destruct k as [|k]; [lia|]. simpl in Ha.
    exists gb, gb', b1, t0, t1, ti, a. auto 10.
  - intros g3. vm_compute. repeat f_equal; apply Qc_is_canon; reflexivity.
Qed.

Lemma drift_correction_anchored_witness :
  exists d,
    drift_correction (floats [0; 1; 2; 3; 4]%Q)
                     (floats [100; 102; 104; 106; 108]%Q)
                     ["B"; "S1"; "B"; "S2"; "B"]%string = Ok d /\
    exists gb gb' b1 t0 t1 ti anchor,
      floats [100; 102; 104; 106; 108]%Q !! 2 = Some gb /\
      floats [100; 102; 104; 106; 108]%Q !! 4 = Some gb' /\
      where_eq ["B"; "S1"; "B"; "S2"; "B"]%string "B" !! 1 = Some b1 /\
      floats [0; 1; 2; 3; 4]%Q !! 0 = Some t0 /\
      floats [0; 1; 2; 3; 4]%Q !! b1 = Some t1 /\
      floats [0; 1; 2; 3; 4]%Q !! 3 = Some ti /\
      d !! 2 = Some anchor /\
      d !! 3 = Some (fadd (fmul (fdiv (fsub gb' gb) (fsub t1 t0))
                                (fsub ti t0))
                          anchor).
Proof.
  eexists. split; [vm_compute; reflexivity|].
  apply (proj1 drift_correction_anchored _ _ _ _ "B"%string 1 2 4 3);
    [vm_compute; reflexivity | reflexivity | reflexivity | reflexivity
    | lia | lia | simpl; lia].
Defined.

(** C4.  When the base label [station[0]] stands at no later index, or
    fewer than two base revisits exist, the function raises [IndexError]
    and returns no drift sequence. *)
Theorem drift_correction_no_recurrence (time g_read : list Qc)
    (station : list string) :
  never_recurs station \/ length (base_revisits station) < 2 ->
  drift_correction time g_read station = Raise IndexError.
Proof.
  intros H.
  assert (length (base_revisits station) < 2) as Hlen
    by (destruct H; [by apply never_recurs_revisits | done]).
  clear H. unfold drift_correction.
  destruct (station !! 0) as [label|] eqn:Hl.
  - rewrite (proj2 (getitem_Ok _ _ _) Hl). simpl.
    rewrite (base_revisits_eq _ _ Hl) in Hlen.
    destruct (g_read !! 0) as [g0|] eqn:Hg0.
    + rewrite (proj2 (getitem_Ok _ _ _) Hg0). simpl.
      rewrite getitem_ge; [done|lia].
    + rewrite (getitem_ge g_read 0); [done|by apply lookup_ge_None_1].
  - rewrite (getitem_ge station 0); [done|by apply lookup_ge_None_1].
Qed.

Lemma drift_correction_no_recurrence_witness :
  drift_correction (floats [0; 1; 2]%Q) (floats [100; 101; 102]%Q)
                   ["B"; "S1"; "S2"]%string = Raise IndexError.
Proof.
  apply drift_correction_no_recurrence. right. simpl. lia.
Defined.

(** C5 (as the code has it).  When [time[0]] equals the time of the second
    base occurrence, no division error is raised: a run that raises no
    [IndexError] returns a sequence of the length of [g_read] whose
    elements are all non-finite, and on well-formed inputs the run raises
    nothing. *)
Theorem drift_correction_equal_bounds (time g_read : list Qc)
    (station : list string) (label : string) (b1 : nat) (t : Qc) :
  station !! 0 = Some label -> where_eq station label !! 1 = Some b1 ->
  time !! 0 = Some t -> time !! b1 = Some t ->
  (forall d, drift_correction time g_read station = Ok d ->
             d = replicate (length g_read) NonFinite) /\
  (well_formed time g_read station ->
   drift_correction time g_read station
   = Ok (replicate (length g_read) NonFinite)).
Proof.
  intros Hl Hb1 Ht0 Ht1. split.
  - intros d. by eapply drift_correction_degenerate.
  - intros (d & Hd)%drift_correction_returns. rewrite Hd. f_equal.
    by eapply drift_correction_degenerate.
Qed.

Lemma drift_correction_equal_bounds_witness :
  drift_correction (floats [2; 2; 2; 2]%Q) (floats [100; 101; 102; 106]%Q)
                   ["B"; "S1"; "S2"; "B"]%string
  = Ok (replicate 4 NonFinite).
Proof.
  apply (proj2 (drift_correction_equal_bounds
                  (floats [2; 2; 2; 2]%Q) (floats [100; 101; 102; 106]%Q)
                  ["B"; "S1"; "S2"; "B"]%string "B"%string 3 (float 2)
                  eq_refl eq_refl eq_refl eq_refl)).
  repeat split; simpl; lia.
Defined.

(** C5 (the claim as stated fails).  With [time = [2,2,2,2]] the two base
    timestamps of the only segment are equal, and the function raises
    nothing: it returns four non-finite values.  With
    [time = [0,1,2,2,2]] and base revisits at 0, 2 and 4 the two base
    timestamps of the second segment are equal, and the function returns
    five numbers. *)
Lemma equal_time_bounds_raise_nothing :
  (floats [2; 2; 2; 2]%Q !! 0 = floats [2; 2; 2; 2]%Q !! 3 /\
   where_eq ["B"; "S1"; "S2"; "B"]%string "B" = [0; 3] /\
   drift_correction (floats [2; 2; 2; 2]%Q) (floats [100; 101; 102; 106]%Q)
                    ["B"; "S1"; "S2"; "B"]%string
   = Ok [NonFinite; NonFinite; NonFinite; NonFinite]) /\
  (floats [0; 1; 2; 2; 2]%Q !! 2 = floats [0; 1; 2; 2; 2]%Q !! 4 /\
   where_eq ["B"; "S1"; "B"; "S2"; "B"]%string "B" = [0; 2; 4] /\
   drift_correction (floats [0; 1; 2; 2; 2]%Q)
                    (floats [100; 102; 104; 106; 108]%Q)
                    ["B"; "S1"; "B"; "S2"; "B"]%string
   = Ok (map Fin (floats [0; 2; 4; 8; 8]%Q))) /\
  ~ (exists e, drift_correction (floats [2; 2; 2; 2]%Q)
                                (floats [100; 101; 102; 106]%Q)
                                ["B"; "S1"; "S2"; "B"]%string = Raise e) /\
  ~ (exists e, drift_correction (floats [0; 1; 2; 2; 2]%Q)
                                (floats [100; 102; 104; 106; 108]%Q)
                                ["B"; "S1"; "B"; "S2"; "B"]%string = Raise e).
Proof.
  split; [|split; [|split]].
  - repeat split; reflexivity.
  - split; [reflexivity|]. split; [reflexivity|].
    vm_compute. repeat f_equal; apply Qc_is_canon; reflexivity.
  - intros (e & He). vm_compute in He. discriminate.
  - intros (e & He). vm_compute in He. discriminate.
Qed.

(** C10 (as the code has it).  When the base label recurs, the times of
    its first two occurrences differ and the slope of the first segment,
    [(g_read[b1] - g_read[0]) / (time[b1] - time[0])], is a number (neither
    the difference of the readings nor the quotient overflows), the first
    element of the returned sequence is 0; on well-formed inputs a
    sequence is returned.  The branch of the loop is taken neither at
    [i = 0] nor at [i = 1]. *)
Theorem drift_correction_first_zero (time g_read : list Qc)
    (station : list string) (label : string) (b1 : nat)
    (g0 g1 t0 t1 : Qc) :
  station !! 0 = Some label -> where_eq station label !! 1 = Some b1 ->
  g_read !! 0 = Some g0 -> g_read !! b1 = Some g1 ->
  time !! 0 = Some t0 -> time !! b1 = Some t1 -> t0 <> t1 ->
  is_finite (fdiv (fsub g1 g0) (fsub t1 t0)) ->
  (forall d, drift_correction time g_read station = Ok d ->
             d !! 0 = Some (Fin 0)) /\
  (well_formed time g_read station ->
   exists d, drift_correction time g_read station = Ok d /\
             d !! 0 = Some (Fin 0)) /\
  (forall idxs, advances 0 idxs = false /\ advances 1 idxs = false).
Proof.
  intros Hl Hb1 Hg0 Hg1 Ht0 Ht1 Hne Hfin. split; [|split].
  - intros d Hd. by apply (drift_correction_first time g_read station d label b1 g0 g1 t0 t1).
  - intros (d & Hd)%drift_correction_returns. exists d. split; [done|].
    by apply (drift_correction_first time g_read station d label b1 g0 g1 t0 t1).
  - done.
Qed.

Lemma drift_correction_first_zero_witness :
  exists d,
    drift_correction (floats [0; 1; 2; 3]%Q) (floats [100; 101; 102; 106]%Q)
                     ["B"; "S1"; "S2"; "B"]%string = Ok d /\
    d !! 0 = Some (Fin 0).
Proof.
  apply (proj1 (proj2 (drift_correction_first_zero
                  (floats [0; 1; 2; 3]%Q) (floats [100; 101; 102; 106]%Q)
                  ["B"; "S1"; "S2"; "B"]%string "B"%string 3
                  (float 100) (float 106) (float 0) (float 3)
                  eq_refl eq_refl eq_refl eq_refl eq_refl eq_refl
                  ltac:(discriminate)
                  ltac:(eexists; vm_compute; reflexivity)))).
  repeat split; simpl; lia.
Defined.

(** C10 (the claim as stated fails).  With [time = [0, 1]],
    [g_read = [-1e308, 1e308]] and [station = [B, B]] the base label
    recurs at index 1 and the two base times differ; the difference of
    the two readings overflows, and the first element of the returned
    sequence is no number, and so not 0. *)
Lemma first_drift_overflow :
  ["B"; "B"]%string !! 0 = Some "B"%string /\
  where_eq ["B"; "B"]%string "B" !! 1 = Some 1 /\
  floats [0; 1]%Q !! 0 = Some (float 0) /\
  floats [0; 1]%Q !! 1 = Some (float 1) /\
  float 0 <> float 1 /\
  fsub (float 1e308) (float (-1e308)) = NonFinite /\
  drift_correction (floats [0; 1]%Q) (floats [-1e308; 1e308]%Q)
                   ["B"; "B"]%string
  = Ok [NonFinite; NonFinite] /\
  ~ (exists d, drift_correction (floats [0; 1]%Q) (floats [-1e308; 1e308]%Q)
                                ["B"; "B"]%string = Ok d /\
               d !! 0 = Some (Fin 0)).
Proof.
  assert (drift_correction (floats [0; 1]%Q) (floats [-1e308; 1e308]%Q)
                           ["B"; "B"]%string
          = Ok [NonFinite; NonFinite]) as Hrun by (vm_compute; reflexivity).
  do 4 (split; [reflexivity|]). split; [discriminate|].
  split; [reflexivity|]. split; [exact Hrun|].
  intros (d & Hd & H0). rewrite Hrun in Hd. injection Hd as <-. discriminate.
Qed.

(** ** [relative_g] and [lat_dist] *)

(** C9.  For a non-empty [g] the first element of [relative_g g] is 0 and
    every element is the element of [g] at its index minus [g[0]]. *)
Theorem relative_g_spec (g : list Qc) :
  g <> [] ->
  exists g0 r,
    g !! 0 = Some g0 /\ relative_g g = Ok r /\
    r !! 0 = Some 0%Qc /\ length r = length g /\
    forall i x, g !! i = Some x -> r !! i = Some (x - g0)%Qc.
Proof.
  destruct g as [|g0 g]; [done|]. intros _.
  exists g0, (map (fun x => x - g0)%Qc (g0 :: g)).
  split; [done|]. split; [done|]. split; [|split].
  - simpl. f_equal. ring.
  - apply length_map.
  - intros i x Hx. by rewrite list_lookup_fmap, Hx.
Qed.

Lemma relative_g_spec_witness :
  exists g0 r,
    floats [100; 102; 99]%Q !! 0 = Some g0 /\
    relative_g (floats [100; 102; 99]%Q) = Ok r /\
    r !! 0 = Some 0%Qc /\ length r = length (floats [100; 102; 99]%Q) /\
    forall i x, floats [100; 102; 99]%Q !! i = Some x ->
                r !! i = Some (x - g0)%Qc.
Proof.
  apply (relative_g_spec (floats [100; 102; 99]%Q)). discriminate.
Defined.

Lemma deg_2_m_value : deg_2_m = float 111000.
Proof. apply Qc_is_canon. reflexivity. Qed.

(** C7.  The factor [deg_2_m] is 111000, and multiplying the result of
    [lat_dist] by it and subtracting the base latitude times it gives the
    distances back. *)
Theorem lat_dist_round_trip (lat_base : Qc) (distance : list Qc) :
  deg_2_m = float 111000 /\
  map (fun l => l * float 111000 - lat_base * float 111000)%Qc
      (lat_dist lat_base distance) = distance.
Proof.
  split; [apply deg_2_m_value|].
  unfold lat_dist. rewrite deg_2_m_value.
  assert (float 111000 <> 0%Qc) as Hne by discriminate.
  induction distance as [|d distance IH]; simpl; [done|].
  f_equal; [|done]. field. done.
Qed.

(** ** [latitude_correction] and [gn] *)

Import Trig.

(** C6.  When [distance] is supplied, [latitude_correction] returns
    [0.811 * sin (2 * base_latitude_in_radians) * distance], whatever
    [st_latitude] is, supplied or not. *)
Theorem latitude_correction_distance_mode (base_latitude : R)
    (st_latitude st_latitude' : option (list R)) (distance : list R) :
  latitude_correction base_latitude st_latitude (Some distance)
  = Ok (map (fun d => 0.811 * sin (2 * deg2rad base_latitude) * d)%R distance)
  /\ latitude_correction base_latitude st_latitude (Some distance)
     = latitude_correction base_latitude st_latitude' (Some distance).
Proof. split; reflexivity. Qed.

Lemma deg2rad_0 : deg2rad 0 = 0%R.
Proof. unfold deg2rad. lra. Qed.

Lemma deg2rad_90 : deg2rad 90 = (PI / 2)%R.
Proof. unfold deg2rad. lra. Qed.

(** C8.  [gn] gives 978031.846 at latitude 0 and 978031.846 * 1.0053024
    at latitude 90. *)
Theorem gn_equator_pole :
  gn [0; 90]%R = [978031.846; 978031.846 * 1.0053024]%R.
Proof.
  unfold gn. simpl. rewrite deg2rad_0, deg2rad_90.
  replace (2 * (PI / 2))%R with PI by lra.
  rewrite Rmult_0_r, sin_0, sin_PI2, sin_PI.
  f_equal; [lra|f_equal; lra].
Qed.

(** * Further properties *)

(** ** [drift_correction]: the exceptions *)

Lemma getitem_Raise {A} (a : list A) (i : nat) (e : exn) :
  getitem a i = Raise e -> e = IndexError.
Proof. unfold getitem. destruct (a !! i); congruence. Qed.

Lemma bind_Raise {A B} (r : result A) (k : A -> result B) (e : exn) :
  (r ≫= k) = Raise e ->
  r = Raise e \/ exists a, r = Ok a /\ k a = Raise e.
Proof. destruct r as [a|e']; simpl; intros H; [right; eauto|left; congruence]. Qed.

Lemma for_range_Raise {St} (body : nat -> St -> result St) (rng : list nat)
    (st : St) (e : exn) :
  (forall i s e', body i s = Raise e' -> e' = IndexError) ->
  for_range body rng st = Raise e -> e = IndexError.
Proof.
  intros Hbody. revert st. induction rng as [|i rng IH]; intros st; simpl.
  - discriminate.
  - intros [H|(s & _ & H)]%bind_Raise; eauto.
Qed.

(** A chain of array reads raises [IndexError] or nothing. *)
Ltac reads_raise H :=
  repeat (apply bind_Raise in H as [H|(? & _ & H)];
          [by apply getitem_Raise in H|]).

Lemma loop_body_Raise (time g_read : list Qc) (idxs : list nat) (i : nat)
    (st : locals) (e : exn) :
  loop_body time g_read idxs i st = Raise e -> e = IndexError.
Proof.
  unfold loop_body. intros [H|(st' & _ & H)]%bind_Raise.
  - destruct (advances i idxs); [|done].
    unfold advance in H. reads_raise H. done.
  - unfold interpolate in H. reads_raise H. done.
Qed.

Lemma drift_correction_Raise (time g_read : list Qc) (station : list string)
    (e : exn) :
  drift_correction time g_read station = Raise e -> e = IndexError.
Proof.
  unfold drift_correction. intros H. reads_raise H.
  apply bind_Raise in H as [H|(? & _ & H)]; [|done].
  eapply for_range_Raise; [|done]. intros i s e'. apply loop_body_Raise.
Qed.

(** The last record of a run that raises nothing is taken at the base. *)
Lemma drift_correction_Ok_last (time g_read : list Qc)
    (station : list string) (d : list fnum) :
  length station <= length g_read ->
  drift_correction time g_read station = Ok d ->
  2 <= length g_read /\ length station = length g_read /\
  station !! (length g_read - 1) = station !! 0.
Proof.
  intros Hlen (label & g0 & b1 & g1 & t0 & t1 & st & H)%drift_correction_Ok.
  destruct H as (Hl & Hg0 & Hb1 & Hg1 & Ht0 & Ht1 & Hrun & ->).
  apply (for_range_inv (fun i st => inv time g_read (where_eq station label) t0 t1 i st))
    in Hrun; [|by eapply inv_init|intros i s s' Hi; apply loop_body_inv; [done|lia]].
  destruct Hrun as (_ & _ & _ & (k & b & b' & _ & _ & Hb' & _ & _ & _ & _ & Hhi) & _).
  assert (station !! b' = Some label) as Hst
    by (apply elem_of_where_eq, list_elem_of_lookup; eauto).
  pose proof (lookup_lt_Some _ _ _ Hst) as Hlt.
  pose proof (idxs_pos _ _ Hl _ _ Hb') as Hpos. simpl in Hhi.
  assert (b' = length g_read - 1) as -> by lia.
  rewrite Hst, Hl. repeat split; lia.
Qed.

(** X1.  Exceptions and returns of [drift_correction].  The only exception
    that the function raises is [IndexError]; on arrays of one length it
    returns a sequence exactly when there are at least two records and the
    last one is taken at the station of the first, and the sequence has
    the length of the arrays. *)
Theorem drift_correction_returns_iff (time g_read : list Qc)
    (station : list string) :
  (forall e, drift_correction time g_read station = Raise e ->
             e = IndexError) /\
  (length time = length g_read -> length station = length g_read ->
   ((exists d, drift_correction time g_read station = Ok d) <->
    2 <= length g_read /\
    station !! (length g_read - 1) = station !! 0)) /\
  (forall d, drift_correction time g_read station = Ok d ->
             length d = length g_read).
Proof.
  split; [|split].
  - intros e. apply drift_correction_Raise.
  - intros Htime Hstation. split.
    + intros (d & Hd). apply drift_correction_Ok_last in Hd; [|lia].
      by destruct Hd as (? & _ & ?).
    + intros (Hlen & Hlast). by apply drift_correction_returns.
  - intros d Hd. apply drift_correction_written in Hd.
    by destruct Hd as (_ & _ & _ & _ & _ & _ & _ & _ & Hlen & _).
Qed.

Lemma drift_correction_returns_iff_witness :
  exists d, drift_correction (floats [0; 1; 2; 3]%Q)
                             (floats [100; 101; 102; 106]%Q)
                             ["B"; "S1"; "S2"; "B"]%string = Ok d.
Proof.
  apply (proj1 (proj2 (drift_correction_returns_iff
                         (floats [0; 1; 2; 3]%Q)
                         (floats [100; 101; 102; 106]%Q)
                         ["B"; "S1"; "S2"; "B"]%string)) eq_refl eq_refl).
  split; [simpl; lia|reflexivity].
Defined.

(** X2.  Records after the last base revisit.  On arrays of one length
    whose last record is not taken at the station of the first, the
    function raises [IndexError], also when the base label recurs. *)
Theorem drift_correction_trailing_records (time g_read : list Qc)
    (station : list string) :
  length time = length g_read -> length station = length g_read ->
  station !! (length g_read - 1) <> station !! 0 ->
  drift_correction time g_read station = Raise IndexError.
Proof.
  intros Htime Hstation Hlast.
  destruct (drift_correction time g_read station) as [d|e] eqn:Hrun.
  - apply drift_correction_Ok_last in Hrun; [|lia].
    by destruct Hrun as (_ & _ & ?).
  - f_equal. by eapply drift_correction_Raise.
Qed.

Lemma drift_correction_trailing_records_witness :
  drift_correction (floats [0; 1; 2; 3]%Q) (floats [100; 101; 102; 106]%Q)
                   ["B"; "S1"; "B"; "S2"]%string = Raise IndexError.
Proof.
  apply drift_correction_trailing_records;
    [reflexivity | reflexivity | discriminate].
Defined.

(** ** [drift_correction]: the values *)

(** X3.  The first segment.  Up to the first base revisit [b1] the drift
    value of record [i] is the value of the expression
    [((g_read[b1] - g_read[0]) / (time[b1] - time[0])) * (time[i] - time[0]) + 0]
    in the float operations of the function: the first segment is bounded
    by the first two base readings and anchored at 0. *)
Theorem drift_correction_first_segment (time g_read : list Qc)
    (station : list string) (d : list fnum) (label : string) (b1 : nat)
    (g0 g1 t0 t1 : Qc) :
  drift_correction time g_read station = Ok d ->
  station !! 0 = Some label -> where_eq station label !! 1 = Some b1 ->
  g_read !! 0 = Some g0 -> g_read !! b1 = Some g1 ->
  time !! 0 = Some t0 -> time !! b1 = Some t1 ->
  forall i ti, i <= b1 -> time !! i = Some ti ->
               d !! i = Some (fadd (fmul (fdiv (fsub g1 g0) (fsub t1 t0))
                                         (fsub ti t0))
                                   (Fin 0)).
Proof.
  intros Hrun Hl Hb1 Hg0 Hg1 Ht0 Ht1 i ti Hi Hti.
  apply drift_correction_written in Hrun
    as (label' & b1' & t0' & t1' & Hl' & Hb1' & Ht0' & Ht1' & _ & Hw).
  assert (label' = label) as -> by congruence.
  assert (b1' = b1) as -> by congruence.
  assert (t0' = t0) as -> by congruence.
  assert (t1' = t1) as -> by congruence.
  destruct (Hw i 0)
    as (b & b' & gb & gb' & ti' & a & Hb & Hb' & Hgb & Hgb' & Hti' & Ha & Hd).
  - apply lookup_lt_Some in Hg1. lia.
  - exists 0, b1. repeat split; auto. by apply where_eq_head.
  - rewrite (where_eq_head _ _ Hl) in Hb. injection Hb as <-.
    assert (b' = b1) as -> by congruence.
    assert (gb = g0) as -> by congruence.
    assert (gb' = g1) as -> by congruence.
    assert (ti' = ti) as -> by congruence.
    simpl in Ha. injection Ha as <-. exact Hd.
Qed.

Lemma drift_correction_first_segment_witness :
  exists d,
    drift_correction (floats [0; 1; 2; 3]%Q) (floats [100; 101; 102; 106]%Q)
                     ["B"; "S1"; "S2"; "B"]%string = Ok d /\
    d !! 2 = Some (fadd (fmul (fdiv (fsub (float 106) (float 100))
                                    (fsub (float 3) (float 0)))
                              (fsub (float 2) (float 0)))
                        (Fin 0)).
Proof.
  eexists. split; [vm_compute; reflexivity|].
  apply (drift_correction_first_segment
           (floats [0; 1; 2; 3]%Q) (floats [100; 101; 102; 106]%Q)
           ["B"; "S1"; "S2"; "B"]%string _ "B"%string 3
           (float 100) (float 106) (float 0) (float 3));
    [vm_compute; reflexivity | reflexivity | reflexivity | reflexivity
    | reflexivity | reflexivity | reflexivity | lia | reflexivity].
Defined.

(** *** The readings that matter *)

Lemma for_range_ext {St} (body body' : nat -> St -> result St)
    (rng : list nat) (st : St) :
  (forall i s, body i s = body' i s) ->
  for_range body rng st = for_range body' rng st.
Proof.
  intros Hext. revert st. induction rng as [|i rng IH]; intros st; simpl;
    [done|].
  rewrite Hext. destruct (body' i st); simpl; auto.
Qed.

Lemma getitem_ext {A} (a a' : list A) (i : nat) :
  a !! i = a' !! i -> getitem a i = getitem a' i.
Proof. unfold getitem. by intros ->. Qed.

Lemma loop_body_ext (time g g' : list Qc) (idxs : list nat) (i : nat)
    (st : locals) :
  (forall b, b ∈ idxs -> g !! b = g' !! b) ->
  loop_body time g idxs i st = loop_body time g' idxs i st.
Proof.
  intros Hext. unfold loop_body. destruct (advances i idxs) eqn:Hadv; [|done].
  apply advances_spec in Hadv as (p & -> & _ & Hp).
  f_equal. unfold advance. simpl. rewrite Nat.sub_0_r.
  rewrite (getitem_ext g g' p) by auto.
  destruct (getitem g' p); simpl; [|done].
  destruct (getitem idxs (S (j st))) as [bg|] eqn:Hbg; simpl; [|done].
  apply getitem_Ok in Hbg.
  rewrite (getitem_ext g g' bg); [done|].
  apply Hext, list_elem_of_lookup. eauto.
Qed.

(** X5.  The readings that matter.  The function reads [g_read] at the base
    revisits only: two reading sequences of one length that agree there
    give the same result, sequence or exception. *)
Theorem drift_correction_base_readings_only (time g_read g_read' : list Qc)
    (station : list string) :
  length g_read = length g_read' ->
  (forall b, b ∈ base_revisits station -> g_read !! b = g_read' !! b) ->
  drift_correction time g_read station
  = drift_correction time g_read' station.
Proof.
  intros Hlen Hext. unfold drift_correction. rewrite <- Hlen.
  destruct (getitem station 0) as [label|] eqn:Hl; simpl; [|done].
  apply getitem_Ok in Hl. rewrite (base_revisits_eq _ _ Hl) in Hext.
  rewrite (getitem_ext g_read g_read' 0)
    by (apply Hext, list_elem_of_lookup; exists 0; by apply where_eq_head).
  destruct (getitem g_read' 0); simpl; [|done].
  destruct (getitem (where_eq station label) 1) as [b1|] eqn:Hb1; simpl;
    [|done].
  apply getitem_Ok in Hb1.
  rewrite (getitem_ext g_read g_read' b1)
    by (apply Hext, list_elem_of_lookup; eauto).
  destruct (getitem g_read' b1); simpl; [|done].
  destruct (getitem time 0); simpl; [|done].
  destruct (getitem time b1); simpl; [|done].
  rewrite (for_range_ext (loop_body time g_read (where_eq station label))
                         (loop_body time g_read' (where_eq station label)));
    [done|].
  intros i s. by apply loop_body_ext.
Qed.

Lemma drift_correction_base_readings_only_witness :
  drift_correction (floats [0; 1; 2; 3]%Q) (floats [100; 101; 102; 106]%Q)
                   ["B"; "S1"; "S2"; "B"]%string
  = drift_correction (floats [0; 1; 2; 3]%Q) (floats [100; 7; -3; 106]%Q)
                     ["B"; "S1"; "S2"; "B"]%string.
Proof.
  apply drift_correction_base_readings_only; [reflexivity|].
  intros b Hb. simpl in Hb. unfold where_eq in Hb. simpl in Hb.
  apply elem_of_cons in Hb as [->|Hb]; [reflexivity|].
  apply elem_of_cons in Hb as [->|Hb]; [reflexivity|].
  by apply elem_of_nil in Hb.
Defined.

(** ** [hms_to_hh] *)

Lemma of_int_this (n : Z) : (this (of_int n) == inject_Z n)%Q.
Proof. unfold of_int. simpl. apply Qred_correct. Qed.

Lemma of_int_add (a b : Z) : of_int (a + b) = (of_int a + of_int b)%Qc.
Proof.
  apply Qc_is_canon. unfold Qcplus. cbn [this Q2Qc].
  rewrite Qred_correct, !of_int_this, inject_Z_plus. reflexivity.
Qed.

Lemma of_int_mul (a b : Z) : of_int (a * b) = (of_int a * of_int b)%Qc.
Proof.
  apply Qc_is_canon. unfold Qcmult. cbn [this Q2Qc].
  rewrite Qred_correct, !of_int_this, inject_Z_mult. reflexivity.
Qed.

Lemma of_int_lt (a b : Z) : (a < b)%Z <-> (of_int a < of_int b)%Qc.
Proof. unfold Qclt. by rewrite !of_int_this, <- Zlt_Qlt. Qed.

Lemma of_int_le (a b : Z) : (a <= b)%Z <-> (of_int a <= of_int b)%Qc.
Proof. unfold Qcle. by rewrite !of_int_this, <- Zle_Qle. Qed.

Lemma of_int_inj (a b : Z) : of_int a = of_int b -> a = b.
Proof.
  intros H. destruct (Z.lt_total a b) as [Hlt|[Heq|Hlt]]; [|done|];
    apply of_int_lt in Hlt; rewrite H in Hlt; by apply Qclt_not_eq in Hlt.
Qed.

(** The value of one time of day, in seconds. *)
Lemma hms_seconds (t : clock) :
  ((of_int (hour t) + of_int (minute t) / float 60
    + of_int (second t) / float 3600) * float 3600)%Qc
  = of_int (seconds t).
Proof.
  unfold seconds. rewrite !of_int_add, !of_int_mul.
  replace (of_int 3600) with (float 60 * float 60)%Qc
    by (apply Qc_is_canon; reflexivity).
  replace (of_int 60) with (float 60) by (apply Qc_is_canon; reflexivity).
  replace (float 3600) with (float 60 * float 60)%Qc
    by (apply Qc_is_canon; reflexivity).
  assert (float 60 <> 0%Qc) as Hne by discriminate.
  generalize dependent (float 60). intros c Hc.
  generalize (of_int (hour t)) (of_int (minute t)) (of_int (second t)).
  intros h m s. field. done.
Qed.

Lemma hms_lt (t t' : clock) :
  (seconds t < seconds t')%Z <->
  (of_int (hour t) + of_int (minute t) / float 60
   + of_int (second t) / float 3600
   < of_int (hour t') + of_int (minute t') / float 60
     + of_int (second t') / float 3600)%Qc.
Proof.
  rewrite of_int_lt, <- !hms_seconds.
  assert (0 < float 3600)%Qc as Hpos by reflexivity.
  split.
  - intros H. by apply Qcmult_lt_mono_pos_r in H.
  - intros H. by apply Qcmult_lt_mono_pos_r.
Qed.

Lemma hms_to_hh_lookup (time : list clock) (i : nat) (t : clock) (q : Qc) :
  time !! i = Some t -> hms_to_hh time !! i = Some q ->
  q = (of_int (hour t) + of_int (minute t) / float 60
       + of_int (second t) / float 3600)%Qc.
Proof.
  intros Ht. unfold hms_to_hh. rewrite list_lookup_fmap, Ht. simpl. congruence.
Qed.

Lemma seconds_inj (t t' : clock) :
  valid_clock t -> valid_clock t' -> seconds t = seconds t' -> t = t'.
Proof.
  destruct t as [h m s], t' as [h' m' s']. unfold valid_clock, seconds.
  cbn [hour minute second]. intros (_ & Hm & Hs) (_ & Hm' & Hs') Heq.
  assert (60 * (h - h') + (m - m') = 0)%Z as Hhm by lia.
  assert (h - h' = 0)%Z as Hh by lia.
  assert (h = h' /\ m = m' /\ s = s') as (-> & -> & ->) by lia. done.
Qed.

(** X7.  The scale of [hms_to_hh].  Each value, times 3600, is the number of
    seconds since midnight of its time of day. *)
Theorem hms_to_hh_seconds (time : list clock) :
  map (fun q => q * float 3600)%Qc (hms_to_hh time)
  = map (fun t => of_int (seconds t)) time.
Proof.
  unfold hms_to_hh. induction time as [|t time IH]; simpl; [done|].
  f_equal; [apply hms_seconds | apply IH].
Qed.

(** X8.  The range of [hms_to_hh].  For times of day whose components are
    in their ranges every value lies in [[0, 24)]. *)
Theorem hms_to_hh_range (time : list clock) :
  Forall valid_clock time ->
  Forall (fun q => 0 <= q /\ q < float 24)%Qc (hms_to_hh time).
Proof.
  intros Hvalid. unfold hms_to_hh. apply Forall_fmap.
  eapply Forall_impl; [exact Hvalid|]. intros t (Hh & Hm & Hs).
  unfold compose.
  assert (0 < float 3600)%Qc as Hpos by reflexivity.
  split.
  - apply (Qcmult_le_mono_pos_r _ _ (float 3600)); [done|].
    rewrite hms_seconds, Qcmult_0_l.
    apply (proj1 (of_int_le 0 (seconds t))). unfold seconds. lia.
  - apply (Qcmult_lt_mono_pos_r _ _ (float 3600)); [done|].
    rewrite hms_seconds.
    replace (float 24 * float 3600)%Qc with (of_int 86400)
      by (apply Qc_is_canon; reflexivity).
    apply (proj1 (of_int_lt (seconds t) 86400)). unfold seconds. lia.
Qed.

Lemma hms_to_hh_range_witness :
  Forall (fun q => 0 <= q /\ q < float 24)%Qc
         (hms_to_hh [Clock 0 0 0; Clock 9 30 15; Clock 23 59 59]).
Proof.
  apply hms_to_hh_range.
  repeat (apply Forall_cons; split;
          [unfold valid_clock; cbn [hour minute second]; lia|]).
  apply Forall_nil. done.
Defined.

(** X9.  The order of [hms_to_hh].  A time of day with fewer seconds since
    midnight gets the smaller value, and two times of day whose
    components are in their ranges get one value only when they are
    equal. *)
Theorem hms_to_hh_chronological (time : list clock) (i k : nat)
    (t t' : clock) (q q' : Qc) :
  time !! i = Some t -> time !! k = Some t' ->
  hms_to_hh time !! i = Some q -> hms_to_hh time !! k = Some q' ->
  ((seconds t < seconds t')%Z <-> (q < q')%Qc) /\
  (valid_clock t -> valid_clock t' -> q = q' -> t = t').
Proof.
  intros Ht Ht' Hq Hq'.
  rewrite (hms_to_hh_lookup _ _ _ _ Ht Hq), (hms_to_hh_lookup _ _ _ _ Ht' Hq').
  split; [apply hms_lt|].
  intros Hv Hv' Heq. apply seconds_inj; [done..|].
  apply of_int_inj. by rewrite <- !hms_seconds, Heq.
Qed.

Lemma hms_to_hh_chronological_witness :
  exists q q',
    hms_to_hh [Clock 9 30 15; Clock 10 0 0] !! 0 = Some q /\
    hms_to_hh [Clock 9 30 15; Clock 10 0 0] !! 1 = Some q' /\
    (q < q')%Qc.
Proof.
  eexists _, _. split; [reflexivity|]. split; [reflexivity|].
  apply (proj1 (hms_to_hh_chronological
                  [Clock 9 30 15; Clock 10 0 0] 0 1
                  (Clock 9 30 15) (Clock 10 0 0) _ _
                  eq_refl eq_refl eq_refl eq_refl)).
  reflexivity.
Defined.

(** ** [lat_dist] *)

Lemma deg_2_m_nonzero : deg_2_m <> 0%Qc.
Proof. discriminate. Qed.

(** X10.  [lat_dist] at the base and along a line, in exact rational
    arithmetic.  A station at distance 0 has the latitude of the base, and
    the latitude at distance [d1 + d] from the base is the latitude at
    distance [d] from the station at distance [d1]. *)
Theorem lat_dist_chain (lat_base d1 : Qc) (distance : list Qc) :
  lat_dist lat_base (replicate (length distance) 0%Qc)
  = replicate (length distance) lat_base /\
  forall lat1, lat_dist lat_base [d1] = [lat1] ->
               lat_dist lat1 distance
               = lat_dist lat_base (map (fun d => d1 + d)%Qc distance).
Proof.
  pose proof deg_2_m_nonzero as Hne. unfold lat_dist. split.
  - induction distance as [|d distance IH]; simpl; [done|].
    f_equal; [|done]. by field.
  - simpl. intros lat1 [= <-].
    induction distance as [|d distance IH]; simpl; [done|].
    f_equal; [|done]. by field.
Qed.

Lemma lat_dist_chain_witness :
  lat_dist (float 40.5) (floats [250; -100]%Q)
  = lat_dist (float 40) (map (fun d => float 55500 + d)%Qc
                             (floats [250; -100]%Q)).
Proof.
  apply (proj2 (lat_dist_chain (float 40) (float 55500)
                               (floats [250; -100]%Q))).
  unfold lat_dist. simpl. f_equal. apply Qc_is_canon. reflexivity.
Defined.

(** ** [relative_g] *)

(** X11.  The exception of [relative_g].  The function raises exactly on the
    empty sequence, and what it raises is [IndexError]. *)
Theorem relative_g_raises (g_obs : list Qc) (e : exn) :
  relative_g g_obs = Raise e <-> g_obs = [] /\ e = IndexError.
Proof.
  destruct g_obs as [|g0 g_obs]; split.
  - by intros [= <-].
  - by intros (_ & ->).
  - discriminate.
  - by intros (? & _).
Qed.

(** X12.  [relative_g] and the level of the readings, in exact rational
    arithmetic.  Raising every value by one amount changes nothing in the
    result, and the result of the function is a sequence that it maps to
    itself. *)
Theorem relative_g_level (g_obs : list Qc) (c : Qc) :
  relative_g (map (fun g => g + c)%Qc g_obs) = relative_g g_obs /\
  forall r, relative_g g_obs = Ok r -> relative_g r = Ok r.
Proof.
  split.
  - destruct g_obs as [|g0 g_obs]; [done|].
    unfold relative_g. simpl. do 2 f_equal; [ring|].
    rewrite map_map. apply map_ext. intros g. ring.
  - destruct g_obs as [|g0 g_obs]; [done|].
    unfold relative_g. simpl. intros r [= <-]. simpl.
    replace (g0 - g0 - (g0 - g0))%Qc with (g0 - g0)%Qc by ring.
    do 2 f_equal. rewrite map_map. apply map_ext. intros g. ring.
Qed.

Lemma relative_g_level_witness :
  relative_g (floats [0; 2; -1]%Q) = Ok (floats [0; 2; -1]%Q).
Proof.
  apply (proj2 (relative_g_level (floats [100; 102; 99]%Q) 0%Qc)).
  vm_compute. repeat f_equal; apply Qc_is_canon; reflexivity.
Defined.

(** ** [air_correction] and [bouguer_correction] *)

(** X13.  [air_correction] is linear and lowers, in exact rational
    arithmetic.  The correction of [a * h1 + h2] is [a] times the
    correction of [h1] plus the one of [h2], and the correction of a
    height that is not negative is not positive. *)
Theorem air_correction_linear (a : Qc) (h1 h2 : list Qc) :
  air_correction (zip_with (fun x y => a * x + y)%Qc h1 h2)
  = zip_with (fun x y => a * x + y)%Qc (air_correction h1) (air_correction h2)
  /\ (Forall (fun x => 0 <= x)%Qc h1 ->
      Forall (fun c => c <= 0)%Qc (air_correction h1)).
Proof.
  unfold air_correction. split.
  - revert h2. induction h1 as [|x h1 IH]; intros [|y h2]; simpl; try done.
    f_equal; [ring|apply IH].
  - intros Hpos. apply Forall_fmap. eapply Forall_impl; [exact Hpos|].
    intros x Hx. simpl.
    replace (- float 0.3086 * x)%Qc with (- (x * float 0.3086))%Qc by ring.
    apply (Qcopp_le_compat 0). rewrite <- (Qcmult_0_l (float 0.3086)).
    by apply Qcmult_le_compat_r.
Qed.

Lemma air_correction_linear_witness :
  Forall (fun c => c <= 0)%Qc (air_correction (floats [0; 12.5; 300]%Q)).
Proof.
  apply (proj2 (air_correction_linear 0%Qc (floats [0; 12.5; 300]%Q) [])).
  repeat (apply Forall_cons; split; [by vm_compute|]). apply Forall_nil. done.
Defined.

(** X14.  [bouguer_correction] is bilinear, in exact rational arithmetic.
    Scaling the density or the heights by [a] scales the correction by
    [a]; for density 0 every correction is 0. *)
Theorem bouguer_correction_bilinear (a rho : Qc) (h : list Qc) :
  bouguer_correction (a * rho) h
  = map (fun c => a * c)%Qc (bouguer_correction rho h) /\
  bouguer_correction rho (map (fun x => a * x)%Qc h)
  = map (fun c => a * c)%Qc (bouguer_correction rho h) /\
  bouguer_correction 0 h = replicate (length h) 0%Qc.
Proof.
  unfold bouguer_correction. rewrite !map_map. split; [|split].
  - apply map_ext. intros x. ring.
  - apply map_ext. intros x. ring.
  - induction h as [|x h IH]; simpl; [done|]. f_equal; [ring|done].
Qed.

(** X15.  The two elevation corrections together, in exact rational
    arithmetic.  The sum of the air correction and the Bouguer correction
    of a height [x] is [(0.04192 * rho - 0.3086) * x]. *)
Theorem elevation_correction (rho : Qc) (h : list Qc) :
  zip_with Qcplus (air_correction h) (bouguer_correction rho h)
  = map (fun x => (float 0.04192 * rho - float 0.3086) * x)%Qc h.
Proof.
  unfold air_correction, bouguer_correction.
  induction h as [|x h IH]; simpl; [done|]. f_equal; [ring|done].
Qed.

(** ** [latitude_correction] *)

Local Open Scope R_scope.

(** X16.  The exception of [latitude_correction].  The function raises
    exactly when neither [st_latitude] nor [distance] is supplied, and
    what it raises is [TypeError]. *)
Theorem latitude_correction_raises (base_latitude : R)
    (st_latitude distance : option (list R)) (e : exn) :
  latitude_correction base_latitude st_latitude distance = Raise e <->
  st_latitude = None /\ distance = None /\ e = TypeError.
Proof.
  destruct distance as [ds|], st_latitude as [st|]; simpl; split;
    try discriminate; try (by intros (? & ? & ?)).
  - by intros [= <-].
  - by intros (_ & _ & ->).
Qed.

(** X17.  The two modes of [latitude_correction].  With station latitudes and
    no distance the result is the one of the distance mode at the
    distances [6367.44 * (latitude - base_latitude)]; a station at the
    latitude of the base gets the correction 0. *)
Theorem latitude_correction_latitude_mode (base_latitude : R)
    (st_latitude : list R) :
  latitude_correction base_latitude (Some st_latitude) None
  = latitude_correction base_latitude None
      (Some (map (fun s => 6367.44 * (s - base_latitude)) st_latitude)) /\
  forall i r, st_latitude !! i = Some base_latitude ->
              latitude_correction base_latitude (Some st_latitude) None = Ok r ->
              r !! i = Some 0.
Proof.
  split.
  - simpl. by rewrite !map_map.
  - simpl. intros i r Hi [= <-]. rewrite !map_map.
    rewrite list_lookup_fmap, Hi. simpl. f_equal. ring.
Qed.

Lemma latitude_correction_latitude_mode_witness :
  exists r, latitude_correction 40 (Some [40.5; 40; 39]) None = Ok r /\
            r !! 1%nat = Some 0.
Proof.
  eexists. split; [reflexivity|].
  apply (proj2 (latitude_correction_latitude_mode 40 [40.5; 40; 39]) 1%nat);
    reflexivity.
Defined.

Lemma sin_2_deg2rad_0 : sin (2 * deg2rad 0) = 0.
Proof. rewrite deg2rad_0, Rmult_0_r. apply sin_0. Qed.

Lemma sin_2_deg2rad_90 : sin (2 * deg2rad 90) = 0.
Proof.
  rewrite deg2rad_90. replace (2 * (PI / 2)) with PI by lra. apply sin_PI.
Qed.

(** X18.  [latitude_correction] at the equator and at the pole, in exact
    real arithmetic.  For a base at latitude 0 or 90 every correction is
    0, in both modes. *)
Theorem latitude_correction_equator_pole (base_latitude : R)
    (st_latitude distance : option (list R)) (r : list R) :
  base_latitude = 0 \/ base_latitude = 90 ->
  latitude_correction base_latitude st_latitude distance = Ok r ->
  Forall (fun c => c = 0) r.
Proof.
  intros Hbase.
  assert (sin (2 * deg2rad base_latitude) = 0) as Hsin
    by (destruct Hbase as [->| ->];
        [apply sin_2_deg2rad_0 | apply sin_2_deg2rad_90]).
  assert (forall (l : list R),
            Forall (fun c => c = 0)
                   (map (fun d => 0.811 * sin (2 * deg2rad base_latitude) * d) l))
    as Hzero.
  { intros l. apply Forall_fmap, Forall_forall. intros x _.
    unfold compose. rewrite Hsin. ring. }
  unfold latitude_correction.
  destruct distance as [ds|]; [intros [= <-]; apply Hzero|].
  destruct st_latitude as [st|]; [|discriminate].
  intros [= <-]. apply Hzero.
Qed.

Lemma latitude_correction_equator_pole_witness :
  exists r, latitude_correction 90 None (Some [100; -250]) = Ok r /\
            Forall (fun c => c = 0) r.
Proof.
  eexists. split; [reflexivity|].
  apply (latitude_correction_equator_pole 90 None (Some [100; -250]));
    [right; reflexivity | reflexivity].
Defined.

(** X19.  The size and the sign of [latitude_correction].  In the distance
    mode a correction is at most [0.811] times its distance in absolute
    value, and the corrections for the base latitude [- base_latitude] are
    the opposites of the ones for [base_latitude]. *)
Theorem latitude_correction_bound (base_latitude : R)
    (st_latitude : option (list R)) (distance : list R) :
  (forall r i c d, latitude_correction base_latitude st_latitude
                                       (Some distance) = Ok r ->
                   r !! i = Some c -> distance !! i = Some d ->
                   Rabs c <= 0.811 * Rabs d) /\
  latitude_correction (- base_latitude) st_latitude (Some distance)
  = Ok (map Ropp (map (fun d => 0.811 * sin (2 * deg2rad base_latitude) * d)
                      distance)).
Proof.
  split.
  - simpl. intros r i c d [= <-] Hc Hd.
    rewrite list_lookup_fmap, Hd in Hc. injection Hc as <-.
    rewrite !Rabs_mult. rewrite (Rabs_pos_eq 0.811) by lra.
    pose proof (SIN_bound (2 * deg2rad base_latitude)) as [Hlo Hhi].
    assert (Rabs (sin (2 * deg2rad base_latitude)) <= 1) as Hsin
      by (apply Rabs_le; lra).
    pose proof (Rabs_pos d). nra.
  - unfold latitude_correction. rewrite map_map. f_equal.
    apply map_ext. intros d. unfold deg2rad.
    replace (2 * (- base_latitude * (PI / 180)))
      with (- (2 * (base_latitude * (PI / 180)))) by lra.
    rewrite sin_neg. ring.
Qed.

Lemma latitude_correction_bound_witness :
  Rabs (0.811 * sin (2 * deg2rad 45) * 100) <= 0.811 * Rabs 100.
Proof.
  apply (proj1 (latitude_correction_bound 45 None [100; -250])
               (map (fun d => 0.811 * sin (2 * deg2rad 45) * d) [100; -250])
               0%nat _ 100);
    reflexivity.
Defined.

(** ** [gn] *)

Lemma deg2rad_add_180 (x : R) : deg2rad (x + 180) = deg2rad x + PI.
Proof. unfold deg2rad. lra. Qed.

(** X20.  [gn] has period 180.  The normal gravity at the latitudes moved by
    180 degrees is the normal gravity at the latitudes. *)
Theorem gn_period (latitude : list R) :
  gn (map (fun l => l + 180) latitude) = gn latitude.
Proof.
  unfold gn. rewrite !map_map. apply map_ext. intros l.
  rewrite deg2rad_add_180, neg_sin.
  replace (2 * (deg2rad l + PI)) with (2 * deg2rad l + 2 * PI) by lra.
  rewrite sin_plus, sin_2PI, cos_2PI. ring.
Qed.

(** X21.  The range of [gn].  Every value lies between
    [978031.846 * (1 - 0.0000058)] and
    [978031.846 * (1 + 0.0053024 + 0.0000058)]. *)
Theorem gn_range (latitude : list R) :
  Forall (fun g => 978031.846 * (1 - 0.0000058) <= g
                   <= 978031.846 * (1 + 0.0053024 + 0.0000058))
         (gn latitude).
Proof.
  unfold gn. apply Forall_fmap, Forall_fmap, Forall_forall. intros l _.
  unfold compose.
  pose proof (SIN_bound (deg2rad l)) as [Hlo Hhi].
  pose proof (SIN_bound (2 * deg2rad l)) as [Hlo2 Hhi2].
  assert (0 <= sin (deg2rad l) * sin (deg2rad l) <= 1) by nra.
  replace (sin (deg2rad l) ^ 2) with (sin (deg2rad l) * sin (deg2rad l))
    by ring.
  lra.
Qed.

(** X22.  [gn] north and south, in exact real arithmetic.  The normal
    gravity at the latitude [- l] exceeds the one at [l] by
    [2 * 978031.846 * 0.0000058 * sin (2 * l_in_radians)]. *)
Theorem gn_north_south (latitude : list R) :
  zip_with Rminus (gn (map Ropp latitude)) (gn latitude)
  = map (fun l => 2 * 978031.846 * 0.0000058 * sin (2 * deg2rad l)) latitude.
Proof.
  unfold gn. induction latitude as [|l latitude IH]; simpl; [done|].
  f_equal; [|apply IH].
  replace (deg2rad (- l)) with (- deg2rad l) by (unfold deg2rad; lra).
  replace (2 * - deg2rad l) with (- (2 * deg2rad l)) by lra.
  rewrite !sin_neg. ring.
Qed.
